(** * Barkr: the cross-posting relay of [barkr/main.py]

    A shallow embedding of the class [Barkr] (construction, one reader tick
    [read], one writer tick [write]) and the properties of its queue table.

    The relay owns a dictionary [message_queues] from connection names to
    lists of pending messages.  [read] pulls messages from every
    READ-capable connection and appends them to the queue of every other
    name; [write] hands each WRITE-capable connection its queue and then
    resets the queue of every connection.  Both methods are driven by two
    threads that share the dictionary under [message_queues_lock]. *)

From stdpp Require Import base option list strings gmap fin_maps.
From Stdlib Require Import ZArith.

Local Open Scope Z_scope.
Local Open Scope string_scope.
Local Open Scope list_scope.

(** ** Exceptions and results *)

(** The exceptions a method of the relay can leave with: the [ValueError] of
    the constructor, the [KeyError] of a dictionary lookup, and whatever a
    connection's [read()] or [write()] raises. *)
Inductive Exn : Type :=
| ValueError (msg : string)
| KeyError (key : string)
| ConnectionFailure (msg : string).

Inductive Result (A : Type) : Type :=
| Ok (a : A)
| Raised (e : Exn).
Arguments Ok {A} a.
Arguments Raised {A} e.

(** Modelled from the spec: [ConnectionMode] of [barkr.connections], which is
    not part of the sources at hand; "a capability flag, READ or WRITE". *)
Inductive ConnectionMode : Type := READ | WRITE.

Global Instance ConnectionMode_eq_dec : EqDecision ConnectionMode.
Proof. solve_decision. Defined.

Section Relay.

(** [Message] of [barkr.models.message] is opaque to the relay.  [World] is
    the state of everything outside the relay (the platforms the connections
    talk to): a call of [read()] or [write()] may depend on it and change
    it. *)
Context {Message World : Type}.

(** Modelled from the spec: [Connection] of [barkr.connections], which is not
    part of the sources at hand: a [name], a collection of [modes], and the
    two operations [read() -> list of Message] and [write(messages)], both
    of which may fail. *)
Record Connection : Type := mkConnection {
  name : string;
  modes : list ConnectionMode;
  conn_read : World → Result (list Message) * World;
  conn_write : list Message → World → Result unit * World
}.

(** ** State *)

(** The attributes of a [Barkr] object.  [message_queues_lock] carries no
    data: it shows in the model as the grain of the steps, see [with_lock]. *)
Record Barkr : Type := mkBarkr {
  polling_interval : Z;
  connections : list Connection;
  message_queues : gmap string (list Message)
}.

(** The calls the relay makes on its connections, in the order made.  This is
    an observation of the run, not data of the program. *)
Inductive Event : Type :=
| CallRead (c : Connection)
| CallWrite (c : Connection) (messages : list Message).

Record Sys : Type := mkSys {
  relay : Barkr;
  world : World;
  calls : list Event
}.

Definition set_queues (f : gmap string (list Message) → gmap string (list Message))
    (s : Sys) : Sys :=
  {| relay := {| polling_interval := polling_interval (relay s);
                 connections := connections (relay s);
                 message_queues := f (message_queues (relay s)) |};
     world := world s;
     calls := calls s |}.

Definition queues (s : Sys) : gmap string (list Message) :=
  message_queues (relay s).

(** ** A state and exception monad for one indivisible piece of code *)

Definition M (A : Type) : Type := Sys → Result A * Sys.

Definition ret {A} (a : A) : M A := λ s, (Ok a, s).

Definition bind {A B} (m : M A) (k : A → M B) : M B :=
  λ s, match m s with
       | (Ok a, s') => k a s'
       | (Raised e, s') => (Raised e, s')
       end.

Notation "'let!' x ':=' m 'in' k" := (bind m (λ x, k))
  (at level 10, x name, m at level 100, k at level 200).

(** The state once a call on a connection came back and left the world [w]:
    the call is recorded, the relay is as it was. *)
Definition called (e : Event) (w : World) (s : Sys) : Sys :=
  {| relay := relay s; world := w; calls := calls s ++ [e] |}.

(** [connection.read()]: its outcome and the new world are the
    connection's. *)
Definition call_read (connection : Connection) : M (list Message) :=
  λ s, let '(r, w) := conn_read connection (world s) in
       (r, called (CallRead connection) w s).

(** [connection.write(messages)]. *)
Definition call_write (connection : Connection) (messages : list Message) : M unit :=
  λ s, let '(r, w) := conn_write connection messages (world s) in
       (r, called (CallWrite connection messages) w s).

(** [self.message_queues[key]], a [KeyError] when the key is absent. *)
Definition get_queue (key : string) : M (list Message) :=
  λ s, match queues s !! key with
       | Some q => (Ok q, s)
       | None => (Raised (KeyError key), s)
       end.

(** ** Threads: sequences of indivisible steps *)

(** A method of the relay runs as a sequence of steps.  A step is either a
    block [with self.message_queues_lock: ...], which no other holder of the
    lock can interleave with, or a call of [connection.read()] outside the
    lock, which touches the world only. *)
Inductive Prog (A : Type) : Type :=
| Ret (a : A)
| Throw (e : Exn)
| Act {B : Type} (m : M B) (k : B → Prog A).
Arguments Ret {A} a.
Arguments Throw {A} e.
Arguments Act {A B} m k.

Fixpoint pbind {A B} (p : Prog A) (f : A → Prog B) : Prog B :=
  match p with
  | Ret a => f a
  | Throw e => Throw e
  | Act m k => Act m (λ b, pbind (k b) f)
  end.

Definition with_lock {A} (body : M A) : Prog A := Act body Ret.

Definition unlocked {A} (call : M A) : Prog A := Act call Ret.

Notation "'do!' x ':=' p 'in' q" := (pbind p (λ x, q))
  (at level 10, x name, p at level 100, q at level 200).
Notation "p 'then!' q" := (pbind p (λ _, q))
  (at level 100, q at level 200, right associativity).

(** [for connection in connections: body(connection)]; an exception leaves
    the loop. *)
Fixpoint for_each (l : list Connection) (body : Connection → Prog unit) : Prog unit :=
  match l with
  | [] => Ret tt
  | connection :: rest => body connection then! for_each rest body
  end.

(** One thread alone: the steps in order, stopping at the first exception. *)
Fixpoint run {A} (p : Prog A) (s : Sys) : Result A * Sys :=
  match p with
  | Ret a => (Ok a, s)
  | Throw e => (Raised e, s)
  | Act m k =>
      match m s with
      | (Ok b, s') => run (k b) s'
      | (Raised e, s') => (Raised e, s')
      end
  end.

(** ** [Barkr.__init__] *)

(** [{connection.name: [] for connection in connections}]: a later
    connection of the same name overwrites the entry of an earlier one. *)
Definition empty_queues (l : list Connection) : gmap string (list Message) :=
  foldl (λ m connection, <[name connection := []]> m) ∅ l.

Definition init (connections : list Connection) (polling_interval : Z) : Result Barkr :=
  match connections with
  | [] => Raised (ValueError "Must provide at least one connection!")
  | _ :: _ =>
      Ok {| polling_interval := polling_interval;
            connections := connections;
            message_queues := empty_queues connections |}
  end.

(** ** [Barkr.read] *)

(** Lines 63-65, the body of the locked block:
    [for name in self.message_queues:
       if name != connection.name: self.message_queues[name] += messages]. *)
Definition fan_out (source : string) (messages : list Message)
    (qs : gmap string (list Message)) : gmap string (list Message) :=
  map_imap (λ key q, Some (if bool_decide (key ≠ source) then q ++ messages else q)) qs.

Definition read_body (connection : Connection) : Prog unit :=
  if negb (bool_decide (READ ∈ modes connection)) then Ret tt
  else
    do! messages := unlocked (call_read connection) in
    match messages with
    | [] => Ret tt
    | _ :: _ =>
        with_lock (λ s, (Ok tt, set_queues (fan_out (name connection) messages) s))
    end.

Definition read (self : Barkr) : Prog unit :=
  for_each (connections self) read_body.

(** ** [Barkr.write] *)

(** Lines 81-90, the first locked block: look the queue up and, when it is
    not empty, pass it to [connection.write]. *)
Definition write_take (connection : Connection) : M unit :=
  let! messages := get_queue (name connection) in
  match messages with
  | [] => ret tt
  | _ :: _ => call_write connection messages
  end.

(** Lines 93-94, the second locked block:
    [self.message_queues[connection.name] = []]. *)
Definition write_reset (connection : Connection) : M unit :=
  λ s, (Ok tt, set_queues (insert (name connection) []) s).

Definition write_body (connection : Connection) : Prog unit :=
  (if bool_decide (WRITE ∈ modes connection)
   then with_lock (write_take connection)
   else Ret tt) then!
  with_lock (write_reset connection).

Definition write (self : Barkr) : Prog unit :=
  for_each (connections self) write_body.

(** One tick of either loop on the relay of the state. *)
Definition read_tick (s : Sys) : Result unit * Sys := run (read (relay s)) s.
Definition write_tick (s : Sys) : Result unit * Sys := run (write (relay s)) s.

(** ** The two threads of [Barkr.start] *)

(** [start] runs [read] and [write] in two threads.  Every access to the
    queue table is inside a locked block, so an execution of the two is an
    interleaving of their steps: the schedule says whose step comes next. *)
Inductive Tid : Type := Reader | Writer.

Definition step {A} (p : Prog A) (s : Sys) : Prog A * Sys :=
  match p with
  | Act m k =>
      match m s with
      | (Ok b, s') => (k b, s')
      | (Raised e, s') => (Throw e, s')
      end
  | _ => (p, s)
  end.

Fixpoint interleave (schedule : list Tid) (r w : Prog unit) (s : Sys)
    : Prog unit * Prog unit * Sys :=
  match schedule with
  | [] => (r, w, s)
  | Reader :: rest => let '(r', s') := step r s in interleave rest r' w s'
  | Writer :: rest => let '(w', s') := step w s in interleave rest r w' s'
  end.

(** [start] hands [self.read] and [self.write] to two threads, each of which
    calls its method over and over.  A thread is at any time somewhere in a
    call of its method, and the world outside moves on its own.  The driver
    of the calls, [wrap_while_true], is not needed to say this: a thread may
    begin a call of its method at any step. *)
Record Running : Type := mkRunning {
  reader : Prog unit;
  writer : Prog unit;
  sys : Sys
}.

Definition started (self : Barkr) (w : World) : Running :=
  {| reader := read self; writer := write self;
     sys := {| relay := self; world := w; calls := [] |} |}.

Inductive lifetime_step : Running → Running → Prop :=
| reader_steps r w s :
    lifetime_step (mkRunning r w s) (mkRunning (step r s).1 w (step r s).2)
| writer_steps r w s :
    lifetime_step (mkRunning r w s) (mkRunning r (step w s).1 (step w s).2)
| reader_ticks r w s :
    lifetime_step (mkRunning r w s) (mkRunning (read (relay s)) w s)
| writer_ticks r w s :
    lifetime_step (mkRunning r w s) (mkRunning r (write (relay s)) s)
| world_moves r w s w' :
    lifetime_step (mkRunning r w s)
      (mkRunning r w {| relay := relay s; world := w'; calls := calls s |}).

(** The relay still holds the collection [cs], and a name has a queue in the
    table exactly when a connection of [cs] carries it. *)
Definition keys_kept (cs : list Connection) (s : Sys) : Prop :=
  connections (relay s) = cs ∧
  ∀ n : string, is_Some (queues s !! n) ↔ n ∈ name <$> cs.

(** Every step of the program keeps the property [I] of the state. *)
Inductive preserves (I : Sys → Prop) {A : Type} : Prog A → Prop :=
| preserves_Ret a : preserves I (Ret a)
| preserves_Throw e : preserves I (Throw e)
| preserves_Act {B : Type} (m : M B) (k : B → Prog A) :
    (∀ s, I s → I (m s).2) →
    (∀ b, preserves I (k b)) →
    preserves I (Act m k).

(** What the connections of [l] hand over when a reader tick calls them one
    after the other from the world [w] (lines 54-59): one entry, the name and
    the posts returned, for every connection with the READ mode, in
    collection order, as far as the first call that raises. *)
Fixpoint pulled (l : list Connection) (w : World) : list (string * list Message) :=
  match l with
  | [] => []
  | connection :: rest =>
      if bool_decide (READ ∈ modes connection) then
        match conn_read connection w with
        | (Ok messages, w') => (name connection, messages) :: pulled rest w'
        | (Raised _, _) => []
        end
      else pulled rest w
  end.

(** What of it the fan-out of lines 63-65 sends to the queue under [key]:
    the posts of every entry under another name, in order. *)
Definition received (key : string) (ps : list (string * list Message)) : list Message :=
  ps ≫= (λ p, if bool_decide (key ≠ p.1) then p.2 else []).

(** The calls of [write()] that a writer tick over [l] makes when it finds
    the queue table [qs] at every turn (lines 80-85): one for every
    connection with the WRITE mode and a queue that is not empty. *)
Definition flushed (l : list Connection) (qs : gmap string (list Message)) : list Event :=
  l ≫= (λ connection,
    if bool_decide (WRITE ∈ modes connection) then
      match qs !! name connection with
      | Some (m :: ms) => [CallWrite connection (m :: ms)]
      | _ => []
      end
    else []).

(** A call the relay over [cs] may make: [read()] on one of its connections
    with the READ mode, [write()] on one with the WRITE mode and with a
    batch that is not empty. *)
Definition due_call (cs : list Connection) (e : Event) : Prop :=
  match e with
  | CallRead c => c ∈ cs ∧ READ ∈ modes c
  | CallWrite c messages => c ∈ cs ∧ WRITE ∈ modes c ∧ messages ≠ []
  end.

End Relay.

Arguments Ret {Message World A} a.
Arguments Throw {Message World A} e.
Arguments Act {Message World A B} m k.

(** * A small relay to run

    Messages are numbers; the world is the count of posts the source
    platform has handed out so far. *)

(** Reads one new post at every call, numbered by the world; accepts every
    write. *)
Definition ex_source : @Connection nat nat :=
  {| name := "a"; modes := [READ];
     conn_read := λ w, (Ok [w], S w);
     conn_write := λ _ w, (Ok tt, w) |}.

(** Write-only; every write succeeds. *)
Definition ex_sink : @Connection nat nat :=
  {| name := "b"; modes := [WRITE];
     conn_read := λ w, (Ok [], w);
     conn_write := λ _ w, (Ok tt, w) |}.

(** Write-only; every write raises. *)
Definition ex_failing_sink : @Connection nat nat :=
  {| name := "b"; modes := [WRITE];
     conn_read := λ w, (Ok [], w);
     conn_write := λ _ w, (Raised (ConnectionFailure "write refused"), w) |}.

(** Read-only; every read raises. *)
Definition ex_failing_source : @Connection nat nat :=
  {| name := "f"; modes := [READ];
     conn_read := λ w, (Raised (ConnectionFailure "read refused"), w);
     conn_write := λ _ w, (Ok tt, w) |}.

(** Reads and writes. *)
Definition ex_both : @Connection nat nat :=
  {| name := "c"; modes := [READ; WRITE];
     conn_read := λ w, (Ok [w], S w);
     conn_write := λ _ w, (Ok tt, w) |}.

(** No mode at all, though a call of its [read()] would return a post. *)
Definition ex_mute : @Connection nat nat :=
  {| name := "d"; modes := [];
     conn_read := λ w, (Ok [99%nat], w);
     conn_write := λ _ w, (Ok tt, w) |}.

(** A relay over [cs] as the constructor leaves it, in the world [0]. *)
Definition ex_start (cs : list (@Connection nat nat)) : @Sys nat nat :=
  {| relay := {| polling_interval := 10; connections := cs;
                 message_queues := empty_queues cs |};
     world := 0%nat; calls := [] |}.

(** The same with the queue table [qs], as earlier ticks may have left it. *)
Definition ex_with_queues (cs : list (@Connection nat nat))
    (qs : gmap string (list nat)) : @Sys nat nat :=
  {| relay := {| polling_interval := 10; connections := cs; message_queues := qs |};
     world := 0%nat; calls := [] |}.

(** The relay of [ex_source] and [ex_failing_sink] after its first reader
    tick: post [0] is queued for the sink. *)
Definition ex_refused : @Sys nat nat :=
  (read_tick (ex_start [ex_source; ex_failing_sink])).2.

(** The same with [ex_mute] as a third connection: post [0] is queued for
    the sink and for [ex_mute]. *)
Definition ex_refused_mute : @Sys nat nat :=
  (read_tick (ex_start [ex_source; ex_failing_sink; ex_mute])).2.

(** The relay of [ex_source] and [ex_sink] after its first reader tick: post
    [0] is queued for the sink. *)
Definition ex_queued : @Sys nat nat :=
  (read_tick (ex_start [ex_source; ex_sink])).2.

(** The writer takes the queue of the sink and writes it, the reader fans
    the next post out, the writer resets the queue of the sink. *)
Definition ex_race : list Tid := [Writer; Writer; Reader; Reader; Writer].

(** Two connections of the one name ["b"], with post [7] in their queue. *)
Definition ex_twins : @Sys nat nat :=
  ex_with_queues [ex_sink; ex_failing_sink] {[ "b" := [7%nat] ]}.

(** The two threads of the relay of [ex_source] and [ex_sink] once the
    reader has made its first call of [read()]. *)
Definition ex_first_step : @Running nat nat :=
  let b := relay (ex_start [ex_source; ex_sink]) in
  mkRunning (step (read b) (mkSys b 0%nat [])).1 (write b)
            (step (read b) (mkSys b 0%nat [])).2.

(** * Properties *)

Section Properties.

Context {Message World : Type}.

Local Abbreviation Connection := (@Connection Message World).
Local Abbreviation Barkr := (@Barkr Message World).
Local Abbreviation Event := (@Event Message World).
Local Abbreviation Sys := (@Sys Message World).
Local Abbreviation Prog := (@Prog Message World).
Local Abbreviation Queues := (gmap string (list Message)).

(** ** Running programs *)

Lemma run_pbind {A B} (p : Prog A) (f : A → Prog B) (s : Sys) :
  run (pbind p f) s =
    match run p s with
    | (Ok a, s') => run (f a) s'
    | (Raised e, s') => (Raised e, s')
    end.
Proof.
  revert s. induction p as [a|e|C m k IH]; intros s; simpl; [done..|].
  destruct (m s) as [[b|e] s']; [apply IH | done].
Qed.

Lemma run_for_each_cons (body : Connection → Prog unit) c l (s : Sys) :
  run (for_each (c :: l) body) s =
    match run (body c) s with
    | (Ok _, s') => run (for_each l body) s'
    | (Raised e, s') => (Raised e, s')
    end.
Proof. simpl. apply run_pbind. Qed.

Lemma run_for_each_app (body : Connection → Prog unit) l1 l2 (s : Sys) :
  run (for_each (l1 ++ l2) body) s =
    match run (for_each l1 body) s with
    | (Ok _, s') => run (for_each l2 body) s'
    | (Raised e, s') => (Raised e, s')
    end.
Proof.
  revert s. induction l1 as [|c l1 IH]; intros s; [done|].
  rewrite <- app_comm_cons, !run_for_each_cons.
  destruct (run (body c) s) as [[[]|e] s']; [apply IH | done].
Qed.

Lemma run_for_each_snoc (body : Connection → Prog unit) l c (s : Sys) :
  run (for_each (l ++ [c]) body) s =
    match run (for_each l body) s with
    | (Ok _, s') => run (body c) s'
    | (Raised e, s') => (Raised e, s')
    end.
Proof.
  rewrite run_for_each_app. destruct (run (for_each l body) s) as [[[]|e] s']; [|done].
  rewrite run_for_each_cons. simpl. by destruct (run (body c) s') as [[[]|e] s''].
Qed.

(** ** Construction *)

Lemma foldl_insert_empty_lookup (l : list Connection) (m : Queues) (n : string) :
  foldl (λ m connection, <[name connection := []]> m) m l !! n =
    if bool_decide (n ∈ name <$> l) then Some [] else m !! n.
Proof.
  revert m. induction l as [|c l IH]; intros m; [done|].
  rewrite fmap_cons. cbn [foldl]. rewrite IH.
  destruct (decide (n = name c)) as [->|Hne].
  - rewrite lookup_insert_eq, (bool_decide_eq_true_2 (name c ∈ name c :: _));
      [by case_bool_decide | apply list_elem_of_here].
  - rewrite lookup_insert_ne by done.
    destruct (decide (n ∈ name <$> l)) as [Hin|Hnin].
    + rewrite (bool_decide_eq_true_2 _ Hin).
      by rewrite bool_decide_eq_true_2 by by apply list_elem_of_further.
    + rewrite (bool_decide_eq_false_2 _ Hnin).
      rewrite bool_decide_eq_false_2; [done|].
      intros [?|?]%elem_of_cons; done.
Qed.

Lemma empty_queues_lookup (l : list Connection) (n : string) :
  empty_queues l !! n = if bool_decide (n ∈ name <$> l) then Some [] else None.
Proof. unfold empty_queues. by rewrite foldl_insert_empty_lookup, lookup_empty. Qed.

(** C6.  [Barkr([], interval)] raises the [ValueError] and yields no relay at
    all; [Barkr(c :: cs, interval)] returns a relay over that collection
    whose queue table has an entry for a name exactly when a connection
    carries it, and that entry is the empty queue. *)
Theorem init_empty_fails_nonempty_builds_empty_queues (interval : Z) :
  @init Message World [] interval
    = Raised (ValueError "Must provide at least one connection!") ∧
  ∀ (c : Connection) (cs : list Connection),
    ∃ b : Barkr,
      init (c :: cs) interval = Ok b ∧
      connections b = c :: cs ∧
      ∀ n : string,
        message_queues b !! n =
          if bool_decide (n ∈ name <$> c :: cs) then Some [] else None.
Proof.
  split; [done|]. intros c cs. eexists. split; [done|]. split; [done|].
  intros n. simpl. apply empty_queues_lookup.
Qed.

(** C10.  The only check of the constructor is that the collection is not
    empty: with a non-empty collection it succeeds for every integer
    interval, zero and the negative ones included, and stores the interval
    as given. *)
Theorem init_accepts_every_interval (cs : list Connection) (interval : Z) :
  cs ≠ [] →
  ∃ b : Barkr,
    init cs interval = Ok b ∧ polling_interval b = interval ∧ connections b = cs.
Proof. intros Hne. destruct cs as [|c cs]; [done|]. by eexists. Qed.

(** ** The reader tick *)

Lemma fan_out_lookup (source : string) (messages : list Message) (qs : Queues) (n : string) :
  fan_out source messages qs !! n =
    (λ q, if bool_decide (n ≠ source) then q ++ messages else q) <$> qs !! n.
Proof. unfold fan_out. rewrite map_lookup_imap. by destruct (qs !! n). Qed.

Lemma fan_out_lookup_other source (messages : list Message) (qs : Queues) n :
  n ≠ source → fan_out source messages qs !! n = (λ q, q ++ messages) <$> qs !! n.
Proof.
  intros Hne. rewrite fan_out_lookup. destruct (qs !! n); [|done].
  simpl. by rewrite bool_decide_eq_true_2.
Qed.

Lemma fan_out_lookup_source source (messages : list Message) (qs : Queues) :
  fan_out source messages qs !! source = qs !! source.
Proof.
  rewrite fan_out_lookup. destruct (qs !! source); [|done].
  simpl. by rewrite bool_decide_eq_false_2 by (intros H; by apply H).
Qed.

Lemma fan_out_dom source (messages : list Message) (qs : Queues) :
  dom (fan_out source messages qs) = dom qs.
Proof.
  apply set_eq. intros n. rewrite !elem_of_dom, fan_out_lookup.
  by rewrite fmap_is_Some.
Qed.

Lemma run_read_body_skip (c : Connection) (s : Sys) :
  READ ∉ modes c → run (read_body c) s = (Ok tt, s).
Proof. intros H. unfold read_body. by rewrite bool_decide_eq_false_2. Qed.

Lemma run_read_body_call (c : Connection) (s : Sys) :
  READ ∈ modes c →
  run (read_body c) s =
    match conn_read c (world s) with
    | (Ok [], w) => (Ok tt, called (CallRead c) w s)
    | (Ok (m :: ms), w) =>
        (Ok tt, set_queues (fan_out (name c) (m :: ms)) (called (CallRead c) w s))
    | (Raised e, w) => (Raised e, called (CallRead c) w s)
    end.
Proof.
  intros H. unfold read_body. rewrite bool_decide_eq_true_2 by done. simpl.
  unfold call_read. destruct (conn_read c (world s)) as [[[|m ms]|e] w]; done.
Qed.

(** What a reader tick adds to the record of calls: calls of [read()], each
    on a connection of the collection that has the READ mode. *)
Lemma read_calls (l : list Connection) (s : Sys) :
  ∃ evs : list Event,
    calls (run (for_each l read_body) s).2 = calls s ++ evs ∧
    Forall (λ e, ∃ d, e = CallRead d ∧ d ∈ l ∧ READ ∈ modes d) evs.
Proof.
  revert s. induction l as [|c l IH]; intros s.
  - exists []. simpl. by rewrite app_nil_r.
  - rewrite run_for_each_cons.
    assert (Hmono : ∀ evs : list Event,
      Forall (λ e, ∃ d, e = CallRead d ∧ d ∈ l ∧ READ ∈ modes d) evs →
      Forall (λ e, ∃ d, e = CallRead d ∧ d ∈ c :: l ∧ READ ∈ modes d) evs).
    { intros evs Hevs. eapply Forall_impl; [exact Hevs|].
      intros e (d & -> & Hd & Hm).
      exists d. split_and!; [done | by apply list_elem_of_further | done]. }
    destruct (decide (READ ∈ modes c)) as [Hc|Hc].
    + assert (Hhere : ∀ (s1 : Sys) (r : Result unit),
        calls s1 = calls s ++ [CallRead c] →
        ∃ evs, calls (match r with
                      | Ok _ => run (for_each l read_body) s1
                      | Raised e => (Raised e, s1)
                      end).2 = calls s ++ evs ∧
          Forall (λ e, ∃ d, e = CallRead d ∧ d ∈ c :: l ∧ READ ∈ modes d) evs).
      { intros s1 r Hs1. destruct r as [[]|e].
        - destruct (IH s1) as (evs & Hevs & Hall).
          exists (CallRead c :: evs). split.
          + rewrite Hevs, Hs1. by rewrite <- app_assoc.
          + constructor; [|by apply Hmono].
            exists c. split_and!; [done | apply list_elem_of_here | done].
        - exists [CallRead c]. split; [done|].
          constructor; [|constructor].
          exists c. split_and!; [done | apply list_elem_of_here | done]. }
      rewrite run_read_body_call by done.
      destruct (conn_read c (world s)) as [[[|m ms]|e] w].
      * by apply (Hhere _ (Ok tt)).
      * by apply (Hhere _ (Ok tt)).
      * by apply (Hhere _ (Raised e)).
    + rewrite run_read_body_skip by done.
      destruct (IH s) as (evs & Hevs & Hall). exists evs. split; [done|].
      by apply Hmono.
Qed.

(** C3.  In a reader tick that has come to the connection [c], which has the
    READ mode and whose [read()] now returns a non-empty list [messages]:
    right after the fan-out the queue of every name other than [c]'s is what
    it was with [messages] appended at its end, as they came, and the queue
    under [c]'s own name is what it was. *)
Theorem read_fan_out_appends_to_other_queues
    (pre : list Connection) (c : Connection) (s0 s : Sys)
    (messages : list Message) (w : World) :
  run (for_each pre read_body) s0 = (Ok tt, s) →
  READ ∈ modes c →
  conn_read c (world s) = (Ok messages, w) →
  (0 < length messages)%nat →
  ∃ s' : Sys,
    run (for_each (pre ++ [c]) read_body) s0 = (Ok tt, s') ∧
    (∀ n : string, n ≠ name c →
       queues s' !! n = (λ q, q ++ messages) <$> queues s !! n) ∧
    queues s' !! name c = queues s !! name c.
Proof.
  intros Hpre Hmode Hread Hlen.
  rewrite run_for_each_snoc, Hpre, run_read_body_call, Hread by done.
  destruct messages as [|m ms]; [simpl in Hlen; lia|].
  eexists. split; [done|]. split.
  - intros n Hn. unfold queues. simpl. by apply fan_out_lookup_other.
  - unfold queues. simpl. apply fan_out_lookup_source.
Qed.

(** C4, as the code has it.  [read] catches nothing: when the tick has come
    to the connection [c] and [c.read()] raises, the exception leaves the
    tick there.  The tick ends with that exception, the queue table is the
    one the earlier connections left, [c] has added nothing, and the call on
    [c] is the last call of the tick: no later connection is read. *)
Theorem read_raise_ends_the_tick
    (pre post : list Connection) (c : Connection) (s0 s : Sys)
    (e : Exn) (w : World) :
  connections (relay s0) = pre ++ c :: post →
  run (for_each pre read_body) s0 = (Ok tt, s) →
  READ ∈ modes c →
  conn_read c (world s) = (Raised e, w) →
  read_tick s0 = (Raised e, called (CallRead c) w s).
Proof.
  intros Hconns Hpre Hmode Hread. unfold read_tick, read.
  rewrite Hconns, run_for_each_app, Hpre, run_for_each_cons.
  by rewrite run_read_body_call, Hread.
Qed.

(** C8.  A connection [c] without the READ mode: no reader tick of any relay
    calls [c.read()], whatever that call would return, and a reader tick
    over a collection with [c] in it is, call for call and queue for queue,
    the tick over the collection without it. *)
Theorem no_read_mode_never_read_nor_fanned (c : Connection) :
  READ ∉ modes c →
  (∀ (b : Barkr) (s : Sys),
     ∃ evs : list Event,
       calls (run (read b) s).2 = calls s ++ evs ∧ CallRead c ∉ evs) ∧
  (∀ (interval : Z) (pre post : list Connection) (qs : Queues) (s : Sys),
     run (read (mkBarkr interval (pre ++ c :: post) qs)) s =
     run (read (mkBarkr interval (pre ++ post) qs)) s).
Proof.
  intros Hmode. split.
  - intros b s. destruct (read_calls (connections b) s) as (evs & Hevs & Hall).
    exists evs. split; [done|]. intros Hin.
    rewrite Forall_forall in Hall. destruct (Hall _ Hin) as (d & Heq & _ & Hd).
    by injection Heq as <-.
  - intros interval pre post qs s. unfold read. simpl.
    rewrite !run_for_each_app.
    destruct (run (for_each pre read_body) s) as [[[]|e] s1]; [|done].
    by rewrite run_for_each_cons, run_read_body_skip.
Qed.

(** ** The writer tick *)

Lemma run_write_body_no_mode (c : Connection) (s : Sys) :
  WRITE ∉ modes c →
  run (write_body c) s = (Ok tt, set_queues (insert (name c) []) s).
Proof. intros H. unfold write_body. by rewrite bool_decide_eq_false_2. Qed.

Lemma run_write_body_mode (c : Connection) (s : Sys) :
  WRITE ∈ modes c →
  run (write_body c) s =
    match queues s !! name c with
    | None => (Raised (KeyError (name c)), s)
    | Some [] => (Ok tt, set_queues (insert (name c) []) s)
    | Some (m :: ms) =>
        match conn_write c (m :: ms) (world s) with
        | (Ok _, w) =>
            (Ok tt, set_queues (insert (name c) [])
                      (called (CallWrite c (m :: ms)) w s))
        | (Raised e, w) => (Raised e, called (CallWrite c (m :: ms)) w s)
        end
    end.
Proof.
  intros H. unfold write_body. rewrite bool_decide_eq_true_2 by done. simpl.
  unfold write_take, bind, get_queue.
  destruct (queues s !! name c) as [[|m ms]|]; [done| |done].
  unfold call_write. by destruct (conn_write c (m :: ms) (world s)) as [[[]|e] w].
Qed.

(** What a writer tick adds to the record of calls: calls of [write()], each
    on a connection of the collection that has the WRITE mode. *)
Lemma write_calls (l : list Connection) (s : Sys) :
  ∃ evs : list Event,
    calls (run (for_each l write_body) s).2 = calls s ++ evs ∧
    Forall (λ e, ∃ d msgs, e = CallWrite d msgs ∧ d ∈ l ∧ WRITE ∈ modes d) evs.
Proof.
  revert s. induction l as [|c l IH]; intros s.
  - exists []. simpl. by rewrite app_nil_r.
  - rewrite run_for_each_cons.
    assert (Hmono : ∀ evs : list Event,
      Forall (λ e, ∃ d msgs, e = CallWrite d msgs ∧ d ∈ l ∧ WRITE ∈ modes d) evs →
      Forall (λ e, ∃ d msgs, e = CallWrite d msgs ∧ d ∈ c :: l ∧ WRITE ∈ modes d) evs).
    { intros evs Hevs. eapply Forall_impl; [exact Hevs|].
      intros e (d & msgs & -> & Hd & Hm).
      exists d, msgs. split_and!; [done | by apply list_elem_of_further | done]. }
    assert (Hsame : ∀ s1 : Sys, calls s1 = calls s →
      ∃ evs, calls (run (for_each l write_body) s1).2 = calls s ++ evs ∧
        Forall (λ e, ∃ d msgs, e = CallWrite d msgs ∧ d ∈ c :: l ∧ WRITE ∈ modes d) evs).
    { intros s1 Hs1. destruct (IH s1) as (evs & Hevs & Hall).
      exists evs. split; [by rewrite Hevs, Hs1 | by apply Hmono]. }
    destruct (decide (WRITE ∈ modes c)) as [Hc|Hc].
    + rewrite run_write_body_mode by done.
      destruct (queues s !! name c) as [[|m ms]|].
      * by apply Hsame.
      * assert (Hc' : ∃ d msgs, CallWrite c (m :: ms) = CallWrite d msgs
                        ∧ d ∈ c :: l ∧ WRITE ∈ modes d).
        { exists c, (m :: ms). split_and!; [done | apply list_elem_of_here | done]. }
        destruct (conn_write c (m :: ms) (world s)) as [[[]|e] w].
        -- destruct (IH (set_queues (insert (name c) [])
                          (called (CallWrite c (m :: ms)) w s)))
             as (evs & Hevs & Hall).
           exists (CallWrite c (m :: ms) :: evs). split.
           ++ rewrite Hevs. simpl. by rewrite <- app_assoc.
           ++ constructor; [done | by apply Hmono].
        -- exists [CallWrite c (m :: ms)]. split; [done|].
           by constructor.
      * exists []. simpl. by rewrite app_nil_r.
    + rewrite run_write_body_no_mode by done. by apply Hsame.
Qed.

(** A property of the state that every turn of the loop keeps holds after
    the loop, however the loop ends. *)
Lemma for_each_invariant (P : Sys → Prop) (body : Connection → Prog unit)
    (l : list Connection) (s : Sys) :
  (∀ c s1, c ∈ l → P s1 → P (run (body c) s1).2) →
  P s → P (run (for_each l body) s).2.
Proof.
  revert s. induction l as [|c l IH]; intros s Hbody Hs; [done|].
  rewrite run_for_each_cons.
  pose proof (Hbody c s (list_elem_of_here _ _) Hs) as Hc.
  destruct (run (body c) s) as [[[]|e] s1]; [|done].
  apply IH; [|done]. intros d s2 Hd. apply Hbody. by apply list_elem_of_further.
Qed.

(** The writer tick makes no queue longer: an empty queue stays empty. *)
Lemma write_keeps_empty (l : list Connection) (s : Sys) (n : string) :
  queues s !! n = Some [] →
  queues (run (for_each l write_body) s).2 !! n = Some [].
Proof.
  apply (for_each_invariant (λ s, queues s !! n = Some [])).
  intros c s1 _ Hs1.
  assert (Hins : ∀ s2 : Sys, queues s2 = queues s1 →
    queues (set_queues (insert (name c) []) s2) !! n = Some []).
  { intros s2 Hs2. unfold queues in *. simpl. rewrite Hs2.
    destruct (decide (name c = n)) as [<-|Hne];
      [apply lookup_insert_eq | by rewrite lookup_insert_ne]. }
  destruct (decide (WRITE ∈ modes c)) as [Hc|Hc].
  - rewrite run_write_body_mode by done.
    destruct (queues s1 !! name c) as [[|m ms]|]; [by apply Hins| |done].
    destruct (conn_write c (m :: ms) (world s1)) as [[[]|e] w]; [by apply Hins | done].
  - rewrite run_write_body_no_mode by done. by apply Hins.
Qed.

(** C1, as the code has it.  In a writer tick that has come to the
    connection [c], which has the WRITE mode and whose queue [q] is not
    empty, [c.write(q)] is called once in [c]'s turn.  When the call returns,
    the queue of [c] is empty right after the turn.  When the call raises,
    the exception leaves the tick before the reset of line 94: the tick ends
    with it and the queue table is untouched, so [q] is still queued, not
    dropped. *)
Theorem write_turn_empties_queue_unless_write_raises
    (pre post : list Connection) (c : Connection) (s0 s : Sys) (q : list Message) :
  connections (relay s0) = pre ++ c :: post →
  run (for_each pre write_body) s0 = (Ok tt, s) →
  WRITE ∈ modes c →
  queues s !! name c = Some q →
  q ≠ [] →
  (∀ w : World, conn_write c q (world s) = (Ok tt, w) →
     ∃ s' : Sys,
       run (for_each (pre ++ [c]) write_body) s0 = (Ok tt, s') ∧
       calls s' = calls s ++ [CallWrite c q] ∧
       queues s' !! name c = Some []) ∧
  (∀ (e : Exn) (w : World), conn_write c q (world s) = (Raised e, w) →
     ∃ s' : Sys,
       write_tick s0 = (Raised e, s') ∧
       calls s' = calls s ++ [CallWrite c q] ∧
       queues s' = queues s ∧
       queues s' !! name c = Some q).
Proof.
  intros Hconns Hpre Hmode Hq Hne. destruct q as [|m ms]; [done|]. split.
  - intros w Hw. eexists. split.
    + by rewrite run_for_each_snoc, Hpre, run_write_body_mode, Hq, Hw.
    + split; [done|]. unfold queues. simpl. apply lookup_insert_eq.
  - intros e w Hw. eexists. split.
    + unfold write_tick, write.
      rewrite Hconns, run_for_each_app, Hpre, run_for_each_cons.
      by rewrite run_write_body_mode, Hq, Hw.
    + done.
Qed.

(** C5.  In a writer tick over a collection in which the connection [c]
    stands once, and which has come to [c], where [c] has the WRITE mode and
    its queue is [q]: over the whole tick [write()] is called on [c] once,
    with the whole of [q] in its order, when [q] is not empty, and not at
    all when [q] is empty. *)
Theorem write_called_once_with_whole_queue
    (pre post : list Connection) (c : Connection) (s0 s : Sys) (q : list Message) :
  connections (relay s0) = pre ++ c :: post →
  c ∉ pre →
  c ∉ post →
  run (for_each pre write_body) s0 = (Ok tt, s) →
  WRITE ∈ modes c →
  queues s !! name c = Some q →
  ∃ before after : list Event,
    calls (write_tick s0).2 =
      calls s0 ++ before
        ++ match q with [] => [] | _ :: _ => [CallWrite c q] end
        ++ after ∧
    (∀ msgs, CallWrite c msgs ∉ before) ∧
    (∀ msgs, CallWrite c msgs ∉ after).
Proof.
  intros Hconns Hnpre Hnpost Hpre Hmode Hq.
  assert (Hnot : ∀ (l : list Connection) (evs : list Event), c ∉ l →
    Forall (λ e, ∃ d msgs, e = CallWrite d msgs ∧ d ∈ l ∧ WRITE ∈ modes d) evs →
    ∀ msgs, CallWrite c msgs ∉ evs).
  { intros l evs Hl Hall msgs Hin. rewrite Forall_forall in Hall.
    destruct (Hall _ Hin) as (d & msgs' & Heq & Hd & _).
    injection Heq as <- _. done. }
  destruct (write_calls pre s0) as (before & Hbefore & Hallb).
  rewrite Hpre in Hbefore. simpl in Hbefore.
  exists before. unfold write_tick, write.
  rewrite Hconns, run_for_each_app, Hpre, run_for_each_cons.
  rewrite run_write_body_mode, Hq by done.
  destruct q as [|m ms].
  - destruct (write_calls post (set_queues (insert (name c) []) s))
      as (after & Hafter & Halla).
    exists after.
    split_and!; [| exact (Hnot _ _ Hnpre Hallb) | exact (Hnot _ _ Hnpost Halla)].
    rewrite Hafter. simpl. by rewrite Hbefore, <- app_assoc.
  - destruct (conn_write c (m :: ms) (world s)) as [[[]|e] w].
    + destruct (write_calls post
        (set_queues (insert (name c) []) (called (CallWrite c (m :: ms)) w s)))
        as (after & Hafter & Halla).
      exists after.
      split_and!; [| exact (Hnot _ _ Hnpre Hallb) | exact (Hnot _ _ Hnpost Halla)].
      rewrite Hafter. simpl. by rewrite Hbefore, <- !app_assoc.
    + exists [].
      split_and!; [| exact (Hnot _ _ Hnpre Hallb) | intros msgs Hin; by inversion Hin].
      simpl. by rewrite Hbefore, <- !app_assoc.
Qed.

(** C7, as the code has it.  A connection [c] without the WRITE mode: no
    writer tick calls [c.write()].  A writer tick that comes to [c], that is,
    one in which no [write()] of an earlier connection raised, resets the
    queue of [c] to the empty queue in [c]'s turn, whatever the queue held,
    and the queue is still empty when the tick ends. *)
Theorem write_resets_queue_without_write_mode (c : Connection) :
  WRITE ∉ modes c →
  (∀ s0 : Sys,
     ∃ evs : list Event,
       calls (write_tick s0).2 = calls s0 ++ evs ∧
       ∀ msgs, CallWrite c msgs ∉ evs) ∧
  (∀ (pre post : list Connection) (s0 s : Sys),
     connections (relay s0) = pre ++ c :: post →
     run (for_each pre write_body) s0 = (Ok tt, s) →
     run (for_each (pre ++ [c]) write_body) s0
       = (Ok tt, set_queues (insert (name c) []) s) ∧
     queues (write_tick s0).2 !! name c = Some []).
Proof.
  intros Hmode. split.
  - intros s0. destruct (write_calls (connections (relay s0)) s0) as (evs & Hevs & Hall).
    exists evs. split; [done|]. intros msgs Hin.
    rewrite Forall_forall in Hall.
    destruct (Hall _ Hin) as (d & msgs' & Heq & _ & Hd).
    injection Heq as <- _. done.
  - intros pre post s0 s Hconns Hpre. split.
    + by rewrite run_for_each_snoc, Hpre, run_write_body_no_mode.
    + unfold write_tick, write.
      rewrite Hconns, run_for_each_app, Hpre, run_for_each_cons.
      rewrite run_write_body_no_mode by done.
      apply write_keeps_empty. unfold queues. simpl. apply lookup_insert_eq.
Qed.

(** ** One thread among two *)

(** Running a thread alone is taking its steps one after the other. *)
Lemma run_step {A} (p : Prog A) (s : Sys) :
  run p s = run (step p s).1 (step p s).2.
Proof. destruct p as [a|e|B m k]; simpl; [done..|]. by destruct (m s) as [[b|e] s']. Qed.

(** A schedule that lets only the writer move is the writer tick, taken as
    far as the schedule goes; likewise for the reader. *)
Lemma interleave_writer_alone (n : nat) (r w : Prog unit) (s : Sys) :
  (interleave (replicate n Writer) r w s).1.1 = r ∧
  run (interleave (replicate n Writer) r w s).1.2
      (interleave (replicate n Writer) r w s).2 = run w s.
Proof.
  revert w s. induction n as [|n IH]; intros w s; simpl; [done|].
  rewrite (run_step w s). destruct (step w s) as [w' s']. apply IH.
Qed.

Lemma interleave_reader_alone (n : nat) (r w : Prog unit) (s : Sys) :
  (interleave (replicate n Reader) r w s).1.2 = w ∧
  run (interleave (replicate n Reader) r w s).1.1
      (interleave (replicate n Reader) r w s).2 = run r s.
Proof.
  revert r s. induction n as [|n IH]; intros r s; simpl; [done|].
  rewrite (run_step r s). destruct (step r s) as [r' s']. apply IH.
Qed.

(** ** The keys of the queue table *)

Lemma preserves_pbind (I : Sys → Prop) {A B} (p : Prog A) (f : A → Prog B) :
  preserves I p → (∀ a, preserves I (f a)) → preserves I (pbind p f).
Proof.
  intros Hp Hf. induction Hp as [a|e|C m k Hm Hk IH]; simpl;
    [apply Hf | constructor | by constructor].
Qed.

Lemma preserves_for_each (I : Sys → Prop) (body : Connection → Prog unit)
    (l : list Connection) :
  (∀ c, c ∈ l → preserves I (body c)) → preserves I (for_each l body).
Proof.
  induction l as [|c l IH]; intros Hbody; simpl; [constructor|].
  apply preserves_pbind; [apply Hbody, list_elem_of_here|].
  intros _. apply IH. intros d Hd. by apply Hbody, list_elem_of_further.
Qed.

Lemma preserves_step (I : Sys → Prop) {A} (p : Prog A) (s : Sys) :
  preserves I p → I s → preserves I (step p s).1 ∧ I (step p s).2.
Proof.
  intros Hp Hs. destruct Hp as [a|e|C m k Hm Hk]; simpl; [by split; [constructor|]..|].
  specialize (Hm s Hs). destruct (m s) as [[b|e] s']; simpl in *;
    (split; [|done]); [apply Hk | constructor].
Qed.

Lemma preserves_run (I : Sys → Prop) {A} (p : Prog A) (s : Sys) :
  preserves I p → I s → I (run p s).2.
Proof.
  intros Hp. revert s. induction Hp as [a|e|C m k Hm Hk IH]; intros s Hs; simpl; [done..|].
  specialize (Hm s Hs). destruct (m s) as [[b|e] s']; [by apply IH | done].
Qed.

Lemma keys_kept_called (cs : list Connection) (e : Event) (w : World) (s : Sys) :
  keys_kept cs s → keys_kept cs (called e w s).
Proof. done. Qed.

Lemma preserves_read_body (cs : list Connection) (c : Connection) :
  preserves (keys_kept cs) (read_body c).
Proof.
  unfold read_body. destruct (negb _); [constructor|]. simpl. constructor.
  - intros s Hs. unfold call_read.
    destruct (conn_read c (world s)) as [r w]. by apply keys_kept_called.
  - intros [|m ms]; [constructor|]. constructor; [|constructor].
    intros s [Hcs Hkeys]. split; [done|]. intros n. rewrite <- Hkeys.
    unfold queues. simpl. by rewrite fan_out_lookup, fmap_is_Some.
Qed.

Lemma preserves_write_body (cs : list Connection) (c : Connection) :
  c ∈ cs → preserves (keys_kept cs) (write_body c).
Proof.
  intros Hc. unfold write_body. apply preserves_pbind.
  - destruct (bool_decide _); constructor; [|constructor].
    intros s Hs. unfold write_take, bind, get_queue.
    destruct (queues s !! name c) as [[|m ms]|]; [done| |done].
    unfold call_write. destruct (conn_write c (m :: ms) (world s)) as [r w].
    by apply keys_kept_called.
  - intros _. constructor; [|constructor].
    intros s [Hcs Hkeys]. split; [done|]. intros n. rewrite <- Hkeys.
    unfold queues. simpl. destruct (decide (name c = n)) as [<-|Hne].
    + rewrite lookup_insert_eq. split; [|by eexists].
      intros _. apply Hkeys. by apply list_elem_of_fmap_2.
    + by rewrite lookup_insert_ne.
Qed.

Lemma preserves_read (cs : list Connection) (b : Barkr) :
  preserves (keys_kept cs) (read b).
Proof. apply preserves_for_each. intros c _. apply preserves_read_body. Qed.

Lemma preserves_write (cs : list Connection) (b : Barkr) :
  connections b = cs → preserves (keys_kept cs) (write b).
Proof.
  intros <-. apply preserves_for_each. intros c Hc. by apply preserves_write_body.
Qed.

Lemma lifetime_keys_kept (cs : list Connection) (st st' : Running) :
  rtc lifetime_step st st' →
  keys_kept cs (sys st) ∧
    preserves (keys_kept cs) (reader st) ∧ preserves (keys_kept cs) (writer st) →
  keys_kept cs (sys st') ∧
    preserves (keys_kept cs) (reader st') ∧ preserves (keys_kept cs) (writer st').
Proof.
  induction 1 as [st|st1 st2 st3 Hstep _ IH]; [done|].
  intros (Hs & Hr & Hw). apply IH. clear IH.
  destruct Hstep as [r w s|r w s|r w s|r w s|r w s w']; simpl in *.
  - destruct (preserves_step _ r s Hr Hs). by split_and!.
  - destruct (preserves_step _ w s Hw Hs). by split_and!.
  - split_and!; [done | apply preserves_read | done].
  - split_and!; [done | done | apply preserves_write, Hs].
  - by split_and!.
Qed.

(** C9.  For a relay built from the collection [cs]: at construction a name
    has a queue exactly when a connection of [cs] carries it; a reader tick
    and a writer tick each keep that, however they end; and so does every
    run of the two threads of [start], step by step: no key is added to the
    table and none is removed. *)
Theorem queue_keys_never_change
    (cs : list Connection) (interval : Z) (b0 : Barkr) :
  init cs interval = Ok b0 →
  (∀ w : World, keys_kept cs (mkSys b0 w [])) ∧
  (∀ s : Sys, keys_kept cs s →
     keys_kept cs (read_tick s).2 ∧ keys_kept cs (write_tick s).2) ∧
  (∀ (w : World) (st : Running),
     rtc lifetime_step (started b0 w) st → keys_kept cs (sys st)).
Proof.
  intros Hinit.
  assert (Hstart : ∀ w : World, keys_kept cs (mkSys b0 w [])).
  { intros w. destruct cs as [|c cs]; [done|]. injection Hinit as <-.
    split; [done|]. intros n. unfold queues. simpl.
    rewrite empty_queues_lookup. case_bool_decide as Hn.
    - split; [done | by eexists].
    - split; [by intros [? ?] | done]. }
  split_and!; [done| |].
  - intros s Hs. unfold read_tick, write_tick. split.
    + apply preserves_run; [apply preserves_read | done].
    + apply preserves_run; [apply preserves_write, Hs | done].
  - intros w st Hrun.
    apply (lifetime_keys_kept cs) in Hrun; [apply Hrun|].
    simpl. split_and!; [done | apply preserves_read | apply preserves_write].
    specialize (Hstart w). apply Hstart.
Qed.

End Properties.

(** * The properties on the small relay *)

Lemma init_accepts_every_interval_witness :
  ∃ b : @Barkr nat nat,
    init [ex_source] (-5) = Ok b ∧ polling_interval b = -5 ∧
    connections b = [ex_source].
Proof. apply (init_accepts_every_interval [ex_source] (-5)). done. Defined.

Lemma read_fan_out_appends_to_other_queues_witness :
  ∃ s' : @Sys nat nat,
    run (for_each ([] ++ [ex_source]) read_body)
        (ex_with_queues [ex_source; ex_sink] {[ "a" := []; "b" := [7%nat] ]})
      = (Ok tt, s') ∧
    (∀ n : string, n ≠ name ex_source →
       queues s' !! n =
         (λ q, q ++ [0%nat]) <$>
           queues (ex_with_queues [ex_source; ex_sink]
                     {[ "a" := []; "b" := [7%nat] ]}) !! n) ∧
    queues s' !! name ex_source =
      queues (ex_with_queues [ex_source; ex_sink]
                {[ "a" := []; "b" := [7%nat] ]}) !! name ex_source.
Proof.
  apply (read_fan_out_appends_to_other_queues [] ex_source
           (ex_with_queues [ex_source; ex_sink] {[ "a" := []; "b" := [7%nat] ]})
           _ [0%nat] 1%nat).
  - reflexivity.
  - apply list_elem_of_here.
  - reflexivity.
  - simpl. lia.
Defined.

Lemma read_raise_ends_the_tick_witness :
  read_tick (ex_start [ex_failing_source; ex_both])
    = (Raised (ConnectionFailure "read refused"),
       called (CallRead ex_failing_source) 0%nat
         (ex_start [ex_failing_source; ex_both])).
Proof.
  apply (read_raise_ends_the_tick [] [ex_both] ex_failing_source
           (ex_start [ex_failing_source; ex_both])).
  - reflexivity.
  - reflexivity.
  - apply list_elem_of_here.
  - reflexivity.
Defined.

(** C4, as stated, fails.  The relay holds [ex_failing_source] and then
    [ex_both], which has the READ mode and a post to give.  [read()] of the
    first raises; the tick ends with that exception, [read()] of [ex_both]
    is not called in the tick, and the queue of the first connection, where
    the post of [ex_both] would have gone, is still empty. *)
Lemma read_raise_skips_later_connections :
  connections (relay (ex_start [ex_failing_source; ex_both]))
    = [ex_failing_source; ex_both] ∧
  READ ∈ modes ex_both ∧
  (read_tick (ex_start [ex_failing_source; ex_both])).1
    = Raised (ConnectionFailure "read refused") ∧
  calls (read_tick (ex_start [ex_failing_source; ex_both])).2
    = [CallRead ex_failing_source] ∧
  (CallRead ex_both ∉ calls (read_tick (ex_start [ex_failing_source; ex_both])).2) ∧
  queues (read_tick (ex_start [ex_failing_source; ex_both])).2 !! "f" = Some [].
Proof.
  split_and!; [reflexivity | apply list_elem_of_here
              | reflexivity | reflexivity | | reflexivity].
  intros H. apply list_elem_of_singleton in H. discriminate H.
Qed.

Lemma no_read_mode_never_read_nor_fanned_witness :
  (∀ (b : @Barkr nat nat) (s : @Sys nat nat),
     ∃ evs : list (@Event nat nat),
       calls (run (read b) s).2 = calls s ++ evs ∧ CallRead ex_mute ∉ evs) ∧
  (∀ (interval : Z) (pre post : list (@Connection nat nat))
     (qs : gmap string (list nat)) (s : @Sys nat nat),
     run (read (mkBarkr interval (pre ++ ex_mute :: post) qs)) s =
     run (read (mkBarkr interval (pre ++ post) qs)) s).
Proof.
  apply (no_read_mode_never_read_nor_fanned ex_mute).
  intros H. by apply elem_of_nil in H.
Defined.

Lemma write_turn_empties_queue_unless_write_raises_witness :
  (∀ w : nat,
     conn_write ex_failing_sink [0%nat]
       (world (run (for_each [ex_source] write_body) ex_refused).2) = (Ok tt, w) →
     ∃ s' : @Sys nat nat,
       run (for_each ([ex_source] ++ [ex_failing_sink]) write_body) ex_refused
         = (Ok tt, s') ∧
       calls s' = calls (run (for_each [ex_source] write_body) ex_refused).2
                    ++ [CallWrite ex_failing_sink [0%nat]] ∧
       queues s' !! name ex_failing_sink = Some []) ∧
  (∀ (e : Exn) (w : nat),
     conn_write ex_failing_sink [0%nat]
       (world (run (for_each [ex_source] write_body) ex_refused).2) = (Raised e, w) →
     ∃ s' : @Sys nat nat,
       write_tick ex_refused = (Raised e, s') ∧
       calls s' = calls (run (for_each [ex_source] write_body) ex_refused).2
                    ++ [CallWrite ex_failing_sink [0%nat]] ∧
       queues s' = queues (run (for_each [ex_source] write_body) ex_refused).2 ∧
       queues s' !! name ex_failing_sink = Some [0%nat]).
Proof.
  apply (write_turn_empties_queue_unless_write_raises
           [ex_source] [] ex_failing_sink ex_refused
           (run (for_each [ex_source] write_body) ex_refused).2 [0%nat]).
  - reflexivity.
  - reflexivity.
  - apply list_elem_of_here.
  - reflexivity.
  - discriminate.
Defined.

(** C1, as stated, fails.  After the first reader tick post [0] is queued
    for [ex_failing_sink], which has the WRITE mode.  The writer tick calls
    its [write([0])], which raises; the tick ends with that exception and
    the queue still holds [0].  The next writer tick passes the same batch
    to [write()] again. *)
Lemma failed_write_keeps_the_batch_queued :
  WRITE ∈ modes ex_failing_sink ∧
  queues ex_refused !! "b" = Some [0%nat] ∧
  (write_tick ex_refused).1 = Raised (ConnectionFailure "write refused") ∧
  queues (write_tick ex_refused).2 !! "b" = Some [0%nat] ∧
  calls (write_tick (write_tick ex_refused).2).2
    = [CallRead ex_source;
       CallWrite ex_failing_sink [0%nat];
       CallWrite ex_failing_sink [0%nat]].
Proof. split_and!; [apply list_elem_of_here | reflexivity..]. Qed.

Lemma write_called_once_with_whole_queue_witness :
  ∃ before after : list (@Event nat nat),
    calls (write_tick ex_queued).2 =
      calls ex_queued ++ before ++ [CallWrite ex_sink [0%nat]] ++ after ∧
    (∀ msgs, CallWrite ex_sink msgs ∉ before) ∧
    (∀ msgs, CallWrite ex_sink msgs ∉ after).
Proof.
  apply (write_called_once_with_whole_queue
           [ex_source] [] ex_sink ex_queued
           (run (for_each [ex_source] write_body) ex_queued).2 [0%nat]).
  - reflexivity.
  - intros H. apply list_elem_of_singleton in H. discriminate H.
  - intros H. by apply elem_of_nil in H.
  - reflexivity.
  - apply list_elem_of_here.
  - reflexivity.
Defined.

Lemma write_resets_queue_without_write_mode_witness :
  (∀ s0 : @Sys nat nat,
     ∃ evs : list (@Event nat nat),
       calls (write_tick s0).2 = calls s0 ++ evs ∧
       ∀ msgs, CallWrite ex_mute msgs ∉ evs) ∧
  (∀ (pre post : list (@Connection nat nat)) (s0 s : @Sys nat nat),
     connections (relay s0) = pre ++ ex_mute :: post →
     run (for_each pre write_body) s0 = (Ok tt, s) →
     run (for_each (pre ++ [ex_mute]) write_body) s0
       = (Ok tt, set_queues (insert (name ex_mute) []) s) ∧
     queues (write_tick s0).2 !! name ex_mute = Some []).
Proof.
  apply (write_resets_queue_without_write_mode ex_mute).
  intros H. by apply elem_of_nil in H.
Defined.

(** C7, as stated, fails.  After the first reader tick post [0] is queued
    for [ex_failing_sink] and for [ex_mute], which has no WRITE mode and
    stands after the sink.  In the writer tick [write()] of the sink raises
    and the tick ends there: the queue of [ex_mute] is not reset, it still
    holds [0] after the tick. *)
Lemma failed_write_leaves_later_queue_unreset :
  connections (relay ex_refused_mute) = [ex_source; ex_failing_sink; ex_mute] ∧
  (WRITE ∉ modes ex_mute) ∧
  queues ex_refused_mute !! "d" = Some [0%nat] ∧
  (write_tick ex_refused_mute).1 = Raised (ConnectionFailure "write refused") ∧
  queues (write_tick ex_refused_mute).2 !! "d" = Some [0%nat].
Proof.
  split_and!; [reflexivity | | reflexivity..].
  intros H. by apply elem_of_nil in H.
Qed.

Lemma queue_keys_never_change_witness :
  (∀ w : nat,
     keys_kept [ex_source; ex_sink]
       (mkSys (relay (ex_start [ex_source; ex_sink])) w [])) ∧
  (∀ s : @Sys nat nat, keys_kept [ex_source; ex_sink] s →
     keys_kept [ex_source; ex_sink] (read_tick s).2 ∧
     keys_kept [ex_source; ex_sink] (write_tick s).2) ∧
  (∀ (w : nat) (st : @Running nat nat),
     rtc lifetime_step (started (relay (ex_start [ex_source; ex_sink])) w) st →
     keys_kept [ex_source; ex_sink] (sys st)).
Proof.
  apply (queue_keys_never_change [ex_source; ex_sink] 10
           (relay (ex_start [ex_source; ex_sink]))).
  reflexivity.
Defined.

(** C2, on the code.  [write] takes the queue of a connection in one locked
    block (lines 81-90) and resets it in another (lines 93-94), so a fan-out
    of the reader can come between the two.  Post [0] is queued for
    [ex_sink].  Under the schedule [ex_race] the writer passes [[0]] to
    [write()], the reader reads post [1] and appends it to the queue of the
    sink, which is then [[0; 1]], and the writer resets that queue.  Both
    ticks are over, every queue is empty, and post [1] was fanned out but
    never passed to any [write()]. *)
Theorem reset_after_take_loses_a_fanned_out_message :
  queues ex_queued !! "b" = Some [0%nat] ∧
  queues (interleave (take 4 ex_race) (read (relay ex_queued))
            (write (relay ex_queued)) ex_queued).2 !! "b" = Some [0%nat; 1%nat] ∧
  (interleave ex_race (read (relay ex_queued))
     (write (relay ex_queued)) ex_queued).1 = (Ret tt, Ret tt) ∧
  queues (interleave ex_race (read (relay ex_queued))
            (write (relay ex_queued)) ex_queued).2 = {[ "a" := []; "b" := [] ]} ∧
  calls (interleave ex_race (read (relay ex_queued))
           (write (relay ex_queued)) ex_queued).2
    = [CallRead ex_source; CallWrite ex_sink [0%nat]; CallRead ex_source].
Proof. split_and!; reflexivity. Qed.

(** * Further properties of the ticks *)

Section Ticks.

Context {Message World : Type}.

Local Abbreviation Connection := (@Connection Message World).
Local Abbreviation Barkr := (@Barkr Message World).
Local Abbreviation Event := (@Event Message World).
Local Abbreviation Sys := (@Sys Message World).
Local Abbreviation Prog := (@Prog Message World).
Local Abbreviation Queues := (gmap string (list Message)).

(** ** What a reader tick leaves in the queues *)

Lemma received_cons (n key : string) (messages : list Message)
    (ps : list (string * list Message)) :
  received n ((key, messages) :: ps) =
    (if bool_decide (n ≠ key) then messages else []) ++ received n ps.
Proof. done. Qed.

Lemma read_queues_pulled (l : list Connection) (s : Sys) (n : string) :
  queues (run (for_each l read_body) s).2 !! n =
    (λ q, q ++ received n (pulled l (world s))) <$> queues s !! n.
Proof.
  revert s. induction l as [|c l IH]; intros s.
  - simpl. destruct (queues s !! n); simpl; [by rewrite app_nil_r | done].
  - rewrite run_for_each_cons. cbn [pulled].
    destruct (decide (READ ∈ modes c)) as [Hc|Hc].
    + rewrite (bool_decide_eq_true_2 _ Hc), run_read_body_call by done.
      destruct (conn_read c (world s)) as [[[|m ms]|e] w].
      * rewrite IH, received_cons. simpl. by destruct (bool_decide _).
      * rewrite IH, received_cons. unfold queues. simpl.
        rewrite fan_out_lookup. destruct (message_queues (relay s) !! n) as [q|]; [|done].
        simpl. destruct (bool_decide (n ≠ name c)); simpl; [|done].
        by rewrite <- (app_assoc q (m :: ms)).
      * unfold queues. simpl.
        destruct (message_queues (relay s) !! n); simpl; [by rewrite app_nil_r | done].
    + rewrite (bool_decide_eq_false_2 _ Hc), run_read_body_skip by done. apply IH.
Qed.

Lemma read_tick_queues (s : Sys) (n : string) :
  queues (read_tick s).2 !! n =
    (λ q, q ++ received n (pulled (connections (relay s)) (world s)))
      <$> queues s !! n.
Proof. apply read_queues_pulled. Qed.

(** X1.  After a reader tick, however it ends, the queue under every name is
    the queue of before with, appended to it, the posts that the connections
    of other names returned in this tick, in the order of the collection and
    in the order each [read()] gave them.  No queue loses a post or has its
    posts reordered by a reader tick, and no queue appears or disappears. *)
Theorem read_tick_appends_what_others_returned (s : Sys) (n : string) :
  queues (read_tick s).2 !! n =
    (λ q, q ++ received n (pulled (connections (relay s)) (world s)))
      <$> queues s !! n.
Proof. apply read_queues_pulled. Qed.

(** ** Where the exceptions of a tick come from *)

Lemma for_each_raised (body : Connection → Prog unit) (l : list Connection)
    (s s' : Sys) (e : Exn) :
  run (for_each l body) s = (Raised e, s') →
  ∃ (c : Connection) (s1 : Sys), c ∈ l ∧ run (body c) s1 = (Raised e, s').
Proof.
  revert s. induction l as [|c l IH]; intros s; [done|].
  rewrite run_for_each_cons.
  destruct (run (body c) s) as [[[]|e1] s1] eqn:Hc.
  - intros (d & s2 & Hd & Hrun)%IH. exists d, s2. split; [by apply list_elem_of_further | done].
  - intros [= -> ->]. exists c, s. split; [apply list_elem_of_here | done].
Qed.

(** X2.  [read] itself never fails: when a reader tick ends with an
    exception, the exception is the one that [read()] of a connection of the
    collection with the READ mode raised. *)
Theorem read_tick_raises_only_what_a_read_raised (s s' : Sys) (e : Exn) :
  read_tick s = (Raised e, s') →
  ∃ (c : Connection) (w w' : World),
    c ∈ connections (relay s) ∧ READ ∈ modes c ∧
    conn_read c w = (Raised e, w').
Proof.
  intros (c & s1 & Hc & Hrun)%for_each_raised.
  destruct (decide (READ ∈ modes c)) as [Hm|Hm].
  - rewrite run_read_body_call in Hrun by done.
    destruct (conn_read c (world s1)) as [[[|m ms]|e1] w] eqn:Hread; [done..|].
    injection Hrun as -> _. by exists c, (world s1), w.
  - by rewrite run_read_body_skip in Hrun.
Qed.

(** ** The writer tick, turn by turn *)

(** The turn of a connection in a writer tick leaves the queue table as it
    was (when [write()] raised or the key was missing) or with the entry of
    the connection reset; when the turn ends well it is the latter. *)
Lemma write_body_queues (c : Connection) (s : Sys) :
  connections (relay (run (write_body c) s).2) = connections (relay s) ∧
  (queues (run (write_body c) s).2 = queues s ∨
   queues (run (write_body c) s).2 = <[name c := []]> (queues s)) ∧
  ((run (write_body c) s).1 = Ok tt →
   queues (run (write_body c) s).2 = <[name c := []]> (queues s)).
Proof.
  destruct (decide (WRITE ∈ modes c)) as [Hc|Hc].
  - rewrite run_write_body_mode by done.
    destruct (queues s !! name c) as [[|m ms]|]; [by split_and!; [|right|]| |by split_and!; [|left|]].
    destruct (conn_write c (m :: ms) (world s)) as [[[]|e] w];
      [by split_and!; [|right|] | by split_and!; [|left|]].
  - rewrite run_write_body_no_mode by done. by split_and!; [|right|].
Qed.

Lemma write_connections_fixed (l : list Connection) (s : Sys) :
  connections (relay (run (for_each l write_body) s).2) = connections (relay s).
Proof.
  apply (for_each_invariant (λ s1, connections (relay s1) = connections (relay s))); [|done].
  intros c s1 _ <-. apply write_body_queues.
Qed.

Lemma write_raised_by_a_write (l : list Connection) (s s' : Sys) (e : Exn) :
  (∀ c, c ∈ l → is_Some (queues s !! name c)) →
  run (for_each l write_body) s = (Raised e, s') →
  ∃ (c : Connection) (q : list Message) (w w' : World),
    c ∈ l ∧ WRITE ∈ modes c ∧ q ≠ [] ∧ conn_write c q w = (Raised e, w').
Proof.
  revert s. induction l as [|c l IH]; intros s Hkeys; [done|].
  rewrite run_for_each_cons.
  destruct (run (write_body c) s) as [[[]|e1] s1] eqn:Hc.
  - intros Hrest. destruct (IH s1) as (d & q & w & w' & Hd & Hrun); [|done|].
    + intros d Hd.
      destruct (write_body_queues c s) as (_ & [Hq|Hq] & _);
        rewrite Hc in Hq; simpl in Hq; rewrite Hq.
      * by apply Hkeys, list_elem_of_further.
      * destruct (decide (name c = name d)) as [->|Hne];
          [rewrite lookup_insert_eq; by eexists|].
        rewrite lookup_insert_ne by done. by apply Hkeys, list_elem_of_further.
    + exists d, q, w, w'. split; [by apply list_elem_of_further | done].
  - intros [= -> ->].
    destruct (decide (WRITE ∈ modes c)) as [Hm|Hm];
      [|by rewrite run_write_body_no_mode in Hc].
    rewrite run_write_body_mode in Hc by done.
    destruct (Hkeys c (list_elem_of_here _ _)) as [q Hq]. rewrite Hq in Hc.
    destruct q as [|m ms]; [done|].
    destruct (conn_write c (m :: ms) (world s)) as [[[]|e1] w] eqn:Hw; [done|].
    injection Hc as -> _.
    exists c, (m :: ms), (world s), w. split_and!; [apply list_elem_of_here | done..].
Qed.

(** X3.  On a relay in which every connection has its queue, as the
    constructor leaves it, [write] never fails on its own account, and in
    particular never with a [KeyError]: when a writer tick ends with an
    exception, the exception is the one that [write()] of a connection with
    the WRITE mode raised on a batch that is not empty. *)
Theorem write_tick_raises_only_what_a_write_raised (s s' : Sys) (e : Exn) :
  (∀ c, c ∈ connections (relay s) → is_Some (queues s !! name c)) →
  write_tick s = (Raised e, s') →
  ∃ (c : Connection) (q : list Message) (w w' : World),
    c ∈ connections (relay s) ∧ WRITE ∈ modes c ∧ q ≠ [] ∧
    conn_write c q w = (Raised e, w').
Proof. apply write_raised_by_a_write. Qed.

Lemma write_ok_all_empty (l : list Connection) (s s' : Sys) :
  run (for_each l write_body) s = (Ok tt, s') →
  ∀ c, c ∈ l → queues s' !! name c = Some [].
Proof.
  revert s. induction l as [|c l IH]; intros s; [by intros _ c ?%elem_of_nil|].
  rewrite run_for_each_cons.
  destruct (run (write_body c) s) as [[[]|e1] s1] eqn:Hc; [|done].
  intros Hrest d [->|Hd]%elem_of_cons; [|by eapply IH].
  destruct (write_body_queues c s) as (_ & _ & Hq). rewrite Hc in Hq. simpl in Hq.
  replace s' with (run (for_each l write_body) s1).2 by by rewrite Hrest.
  apply write_keeps_empty. rewrite Hq by done. apply lookup_insert_eq.
Qed.

(** X4.  When a writer tick ends without an exception, the queue of every
    connection of the collection is empty after it, with or without the
    WRITE mode, written or not. *)
Theorem completed_write_tick_empties_every_queue (s s' : Sys) (c : Connection) :
  write_tick s = (Ok tt, s') →
  c ∈ connections (relay s) →
  queues s' !! name c = Some [].
Proof. intros Hrun Hc. by eapply write_ok_all_empty. Qed.

Lemma set_queues_reset_empty (n : string) (s : Sys) :
  queues s !! n = Some [] → set_queues (insert n []) s = s.
Proof.
  destruct s as [[interval cs qs] w evs]. unfold queues, set_queues. simpl.
  intros Hn. by rewrite insert_id.
Qed.

Lemma write_nothing_to_do (l : list Connection) (s : Sys) :
  (∀ c, c ∈ l → queues s !! name c = Some []) →
  run (for_each l write_body) s = (Ok tt, s).
Proof.
  induction l as [|c l IH]; intros Hempty; [done|].
  rewrite run_for_each_cons.
  pose proof (Hempty c (list_elem_of_here _ _)) as Hc.
  assert (run (write_body c) s = (Ok tt, s)) as ->.
  { destruct (decide (WRITE ∈ modes c)) as [Hm|Hm].
    - by rewrite run_write_body_mode, Hc, set_queues_reset_empty.
    - by rewrite run_write_body_no_mode, set_queues_reset_empty. }
  apply IH. intros d Hd. by apply Hempty, list_elem_of_further.
Qed.

(** X5.  A writer tick that follows a completed writer tick, with no reader
    fan-out in between, does nothing: it calls no [write()], changes no
    queue and ends without an exception. *)
Theorem write_tick_after_completed_write_tick_is_idle (s s1 : Sys) :
  write_tick s = (Ok tt, s1) →
  write_tick s1 = (Ok tt, s1).
Proof.
  intros Hrun. unfold write_tick, write.
  assert (connections (relay s1) = connections (relay s)) as ->.
  { replace s1 with (run (for_each (connections (relay s)) write_body) s).2
      by by (unfold write_tick, write in Hrun; rewrite Hrun).
    apply write_connections_fixed. }
  apply write_nothing_to_do. intros c Hc. by eapply write_ok_all_empty.
Qed.

(** X6.  A writer tick, however it ends, adds nothing to any queue: the
    queue under every name is after the tick what it was before, or is
    empty. *)
Theorem write_tick_keeps_or_empties_each_queue (s : Sys) (n : string) :
  queues (write_tick s).2 !! n = queues s !! n ∨
  queues (write_tick s).2 !! n = Some [].
Proof.
  apply (for_each_invariant
    (λ s1, queues s1 !! n = queues s !! n ∨ queues s1 !! n = Some [])); [|by left].
  intros c s1 _ Hs1.
  destruct (write_body_queues c s1) as (_ & [Hq|Hq] & _); rewrite Hq; [done|].
  destruct (decide (name c = n)) as [<-|Hne];
    [right; apply lookup_insert_eq | by rewrite lookup_insert_ne].
Qed.

(** X7.  Two connections of one name share one queue.  In a writer tick
    over a collection in which [c2] stands once, after a connection [c1] of
    the same name, [write()] is never called on [c2]: the turn of [c1] has
    emptied their queue. *)
Theorem later_connection_of_a_name_is_never_written
    (pre post : list Connection) (c1 c2 : Connection) (s0 : Sys) :
  connections (relay s0) = pre ++ c2 :: post →
  c1 ∈ pre →
  name c1 = name c2 →
  c2 ∉ pre →
  c2 ∉ post →
  ∃ evs : list Event,
    calls (write_tick s0).2 = calls s0 ++ evs ∧
    ∀ msgs, CallWrite c2 msgs ∉ evs.
Proof.
  intros Hconns Hc1 Hname Hnpre Hnpost.
  assert (Hnot : ∀ (l : list Connection) (evs : list Event), c2 ∉ l →
    Forall (λ e, ∃ d msgs, e = CallWrite d msgs ∧ d ∈ l ∧ WRITE ∈ modes d) evs →
    ∀ msgs, CallWrite c2 msgs ∉ evs).
  { intros l evs Hl Hall msgs Hin. rewrite Forall_forall in Hall.
    destruct (Hall _ Hin) as (d & msgs' & Heq & Hd & _).
    injection Heq as <- _. done. }
  destruct (write_calls pre s0) as (before & Hbefore & Hallb).
  unfold write_tick, write. rewrite Hconns, run_for_each_app.
  destruct (run (for_each pre write_body) s0) as [[[]|e] s] eqn:Hpre; simpl in Hbefore.
  - pose proof (write_ok_all_empty _ _ _ Hpre c1 Hc1) as Hempty. rewrite Hname in Hempty.
    rewrite run_for_each_cons.
    assert (∃ s1, run (write_body c2) s = (Ok tt, s1) ∧ calls s1 = calls s)
      as (s1 & -> & Hs1).
    { destruct (decide (WRITE ∈ modes c2)) as [Hm|Hm].
      - rewrite run_write_body_mode, Hempty by done. by eexists.
      - rewrite run_write_body_no_mode by done. by eexists. }
    destruct (write_calls post s1) as (after & Hafter & Halla).
    exists (before ++ after). split.
    + by rewrite Hafter, Hs1, Hbefore, <- app_assoc.
    + intros msgs [Hin|Hin]%elem_of_app;
        [by eapply (Hnot pre before) | by eapply (Hnot post after)].
  - exists before. split; [done|]. by apply (Hnot pre).
Qed.

(** ** What a completed writer tick writes *)

Lemma flushed_cons (c : Connection) (l : list Connection) (qs : Queues) :
  flushed (c :: l) qs = flushed [c] qs ++ flushed l qs.
Proof. unfold flushed. simpl. by rewrite app_nil_r. Qed.

Lemma flushed_reset_other (l : list Connection) (qs : Queues) (n : string) :
  n ∉ name <$> l → flushed l (<[n := []]> qs) = flushed l qs.
Proof.
  induction l as [|c l IH]; [done|]. rewrite fmap_cons, not_elem_of_cons.
  intros [Hne Hl]. rewrite (flushed_cons c l), (flushed_cons c l qs), IH by done.
  f_equal. unfold flushed. simpl. by rewrite lookup_insert_ne.
Qed.

Lemma write_ok_calls (l : list Connection) (s s' : Sys) :
  NoDup (name <$> l) →
  run (for_each l write_body) s = (Ok tt, s') →
  calls s' = calls s ++ flushed l (queues s).
Proof.
  revert s. induction l as [|c l IH]; intros s.
  - intros _ [= <-]. by rewrite app_nil_r.
  - rewrite fmap_cons, NoDup_cons. intros [Hc Hl].
    rewrite run_for_each_cons, flushed_cons.
    unfold flushed at 1. simpl. rewrite app_nil_r.
    destruct (decide (WRITE ∈ modes c)) as [Hm|Hm].
    + rewrite (bool_decide_eq_true_2 _ Hm), run_write_body_mode by done.
      destruct (queues s !! name c) as [[|m ms]|]; [| |done].
      * intros Hrest. rewrite (IH _ Hl Hrest). unfold queues. simpl.
        by rewrite flushed_reset_other.
      * destruct (conn_write c (m :: ms) (world s)) as [[[]|e] w]; [|done].
        intros Hrest. rewrite (IH _ Hl Hrest). unfold queues. simpl.
        by rewrite flushed_reset_other, <- app_assoc.
    + rewrite (bool_decide_eq_false_2 _ Hm), run_write_body_no_mode by done.
      intros Hrest. rewrite (IH _ Hl Hrest). unfold queues. simpl.
      by rewrite flushed_reset_other.
Qed.

(** X8.  On a relay whose connections have names different from one another,
    a writer tick that ends without an exception has called [write()], in
    the order of the collection, on every connection with the WRITE mode
    whose queue was not empty when the tick began, each once and with that
    queue whole, and has made no other call. *)
Theorem completed_write_tick_writes_the_queues_it_found (s s' : Sys) :
  NoDup (name <$> connections (relay s)) →
  write_tick s = (Ok tt, s') →
  calls s' = calls s ++ flushed (connections (relay s)) (queues s).
Proof. apply write_ok_calls. Qed.

Lemma read_connections_fixed (l : list Connection) (s : Sys) :
  connections (relay (run (for_each l read_body) s).2) = connections (relay s).
Proof.
  apply (for_each_invariant (λ s1, connections (relay s1) = connections (relay s))); [|done].
  intros c s1 _ <-. destruct (decide (READ ∈ modes c)) as [Hm|Hm].
  - rewrite run_read_body_call by done.
    by destruct (conn_read c (world s1)) as [[[|m ms]|e] w].
  - by rewrite run_read_body_skip.
Qed.

(** X9.  From construction to delivery.  A relay is built over connections
    of names different from one another; its first reader tick and then its
    first writer tick both end without an exception.  Then after the reader
    tick the queue of every connection holds exactly the posts that the
    connections of other names returned, in collection order, and the writer
    tick has called [write()] with exactly these queues. *)
Theorem first_read_then_write_delivers_what_others_returned
    (cs : list Connection) (interval : Z) (b : Barkr) (w : World) (s1 s2 : Sys) :
  init cs interval = Ok b →
  NoDup (name <$> cs) →
  read_tick (mkSys b w []) = (Ok tt, s1) →
  write_tick s1 = (Ok tt, s2) →
  (∀ c, c ∈ cs → queues s1 !! name c = Some (received (name c) (pulled cs w))) ∧
  calls s2 = calls s1 ++ flushed cs (queues s1).
Proof.
  intros Hinit Hnodup Hread Hwrite.
  assert (connections b = cs ∧ message_queues b = empty_queues cs) as [Hcs Hqs].
  { destruct cs; [done|]. by injection Hinit as <-. }
  assert (Hs1 : s1 = (read_tick (mkSys b w [])).2) by by rewrite Hread.
  split.
  - intros c Hc. rewrite Hs1, read_tick_queues. simpl. unfold queues. simpl.
    rewrite Hcs, Hqs, empty_queues_lookup.
    by rewrite bool_decide_eq_true_2 by by apply list_elem_of_fmap_2.
  - assert (connections (relay s1) = cs) as Hcs1.
    { rewrite Hs1. unfold read_tick, read. by rewrite read_connections_fixed. }
    rewrite <- Hcs1. apply write_ok_calls; [by rewrite Hcs1 | done].
Qed.

(** ** How many queues the constructor makes *)

Lemma size_names (l : list string) :
  (size (list_to_set l : gset string) ≤ length l)%nat ∧
  (size (list_to_set l : gset string) = length l ↔ NoDup l).
Proof.
  induction l as [|x l [IHle IHeq]].
  - split; [done|]. split; [constructor | done].
  - rewrite list_to_set_cons, NoDup_cons. simpl.
    destruct (decide (x ∈ l)) as [Hx|Hx].
    + rewrite (subseteq_union_1_L (C:=gset string) {[x]} (list_to_set l))
        by (apply singleton_subseteq_l; by apply elem_of_list_to_set).
      split; [lia|]. split.
      * intros Heq. lia.
      * by intros [? _].
    + rewrite size_union, size_singleton
        by (apply disjoint_singleton_l; by rewrite elem_of_list_to_set).
      split; [lia|]. rewrite <- IHeq. split.
      * intros Heq. split; [done | lia].
      * intros [_ Heq]. lia.
Qed.

Lemma empty_queues_dom (l : list Connection) :
  dom (empty_queues l) = list_to_set (name <$> l).
Proof.
  apply set_eq. intros n.
  rewrite elem_of_dom, empty_queues_lookup, elem_of_list_to_set.
  case_bool_decide; split; done.
Qed.

(** X10.  The constructor makes one queue for every name, not for every
    connection: the table never has more queues than there are connections,
    and it has as many exactly when no two connections carry the same
    name. *)
Theorem init_makes_one_queue_per_distinct_name
    (cs : list Connection) (interval : Z) (b : Barkr) :
  init cs interval = Ok b →
  (size (message_queues b) ≤ length cs)%nat ∧
  (size (message_queues b) = length cs ↔ NoDup (name <$> cs)).
Proof.
  intros Hinit.
  assert (message_queues b = empty_queues cs) as ->.
  { destruct cs; [done|]. by injection Hinit as <-. }
  rewrite <- size_dom, empty_queues_dom, <- (length_fmap name cs).
  apply size_names.
Qed.

(** ** The whole life of the relay *)

(** A property of the state that every step of [read] and of [write] keeps,
    and that does not depend on the world, holds in every state that the
    two threads of [start] reach. *)
Lemma lifetime_invariant (I : Sys → Prop) (st st' : Running) :
  (∀ s, I s → preserves I (read (relay s)) ∧ preserves I (write (relay s))) →
  (∀ s w', I s → I (mkSys (relay s) w' (calls s))) →
  rtc lifetime_step st st' →
  I (sys st) ∧ preserves I (reader st) ∧ preserves I (writer st) →
  I (sys st') ∧ preserves I (reader st') ∧ preserves I (writer st').
Proof.
  intros Hticks Hworld. induction 1 as [st|st1 st2 st3 Hstep _ IH]; [done|].
  intros (Hs & Hr & Hw). apply IH. clear IH.
  destruct Hstep as [r w s|r w s|r w s|r w s|r w s w']; simpl in *.
  - destruct (preserves_step _ r s Hr Hs). by split_and!.
  - destruct (preserves_step _ w s Hw Hs). by split_and!.
  - split_and!; [done | by apply Hticks | done].
  - split_and!; [done | done | by apply Hticks].
  - split_and!; [by apply Hworld | done..].
Qed.

Lemma preserves_read_body_of (I : Sys → Prop) (c : Connection) :
  (READ ∈ modes c → ∀ w s, I s → I (called (CallRead c) w s)) →
  (∀ f s, I s → I (set_queues f s)) →
  preserves I (read_body c).
Proof.
  intros Hcall Hset. unfold read_body. case_bool_decide as Hm; simpl; [|constructor].
  constructor.
  - intros s Hs. unfold call_read.
    destruct (conn_read c (world s)) as [r w]. by apply Hcall.
  - intros [|m ms]; [constructor|]. constructor; [|constructor].
    intros s Hs. by apply Hset.
Qed.

Lemma preserves_write_body_of (I : Sys → Prop) (c : Connection) :
  (WRITE ∈ modes c → ∀ m ms w s, I s → I (called (CallWrite c (m :: ms)) w s)) →
  (∀ f s, I s → I (set_queues f s)) →
  preserves I (write_body c).
Proof.
  intros Hcall Hset. unfold write_body. apply preserves_pbind.
  - case_bool_decide as Hm; constructor; [|constructor].
    intros s Hs. unfold write_take, bind, get_queue.
    destruct (queues s !! name c) as [[|m ms]|]; [done| |done].
    unfold call_write. destruct (conn_write c (m :: ms) (world s)) as [r w].
    by apply Hcall.
  - intros _. constructor; [|constructor]. intros s Hs. by apply Hset.
Qed.

(** X11.  Nothing that [read] and [write] do, in whatever order the two
    threads of [start] take their steps, changes the collection of
    connections or the polling interval that the relay was started with. *)
Theorem collection_and_interval_never_change
    (b : Barkr) (w : World) (st : Running) :
  rtc lifetime_step (started b w) st →
  connections (relay (sys st)) = connections b ∧
  polling_interval (relay (sys st)) = polling_interval b.
Proof.
  intros Hrun.
  pose (I := λ s : Sys, connections (relay s) = connections b ∧
                         polling_interval (relay s) = polling_interval b).
  assert (Hticks : ∀ b' : Barkr, preserves I (read b') ∧ preserves I (write b')).
  { intros b'. split; apply preserves_for_each; intros c _.
    - by apply preserves_read_body_of.
    - by apply preserves_write_body_of. }
  apply (lifetime_invariant I) in Hrun; [apply Hrun | by intros s _ | done |].
  simpl. split_and!; [done | apply Hticks..].
Qed.

(** X12.  In whatever order the two threads of [start] take their steps,
    every call the relay has made is one it is meant to make: [read()] only
    on a connection of its collection that has the READ mode, [write()] only
    on one that has the WRITE mode, and never with an empty batch. *)
Theorem relay_only_makes_due_calls (b : Barkr) (w : World) (st : Running) :
  rtc lifetime_step (started b w) st →
  Forall (due_call (connections b)) (calls (sys st)).
Proof.
  intros Hrun.
  pose (I := λ s : Sys, connections (relay s) = connections b ∧
                         Forall (due_call (connections b)) (calls s)).
  assert (Hticks : ∀ b' : Barkr, connections b' = connections b →
    preserves I (read b') ∧ preserves I (write b')).
  { intros b' Hb'. unfold read, write. rewrite Hb'.
    split; apply preserves_for_each; intros c Hc.
    - apply preserves_read_body_of; [|done].
      intros Hm w' s [Hcs Hdue]. split; [done|]. simpl.
      apply Forall_app. split; [done|]. by repeat constructor.
    - apply preserves_write_body_of; [|done].
      intros Hm m ms w' s [Hcs Hdue]. split; [done|]. simpl.
      apply Forall_app. split; [done|]. by repeat constructor. }
  apply (lifetime_invariant I) in Hrun; [apply Hrun | | done |].
  - intros s [Hcs _]. by apply Hticks.
  - simpl. split_and!; [by split; [|constructor] | by apply Hticks..].
Qed.

End Ticks.

(** * The further properties on the small relay *)

Lemma ex_names_differ : NoDup (name <$> [ex_source; ex_sink]).
Proof.
  apply NoDup_cons. split; [|apply NoDup_singleton].
  intros H. apply list_elem_of_singleton in H. discriminate H.
Defined.

Lemma ex_first_step_reached :
  rtc lifetime_step (started (relay (ex_start [ex_source; ex_sink])) 0%nat)
    ex_first_step.
Proof.
  eapply rtc_l; [|apply rtc_refl].
  apply (reader_steps (read (relay (ex_start [ex_source; ex_sink])))).
Defined.

Lemma read_tick_raises_only_what_a_read_raised_witness :
  ∃ (c : @Connection nat nat) (w w' : nat),
    c ∈ connections (relay (ex_start [ex_failing_source; ex_both])) ∧
    READ ∈ modes c ∧
    conn_read c w = (Raised (ConnectionFailure "read refused"), w').
Proof.
  apply (read_tick_raises_only_what_a_read_raised
           (ex_start [ex_failing_source; ex_both])
           (read_tick (ex_start [ex_failing_source; ex_both])).2).
  reflexivity.
Defined.

Lemma write_tick_raises_only_what_a_write_raised_witness :
  ∃ (c : @Connection nat nat) (q : list nat) (w w' : nat),
    c ∈ connections (relay ex_refused) ∧ WRITE ∈ modes c ∧ q ≠ [] ∧
    conn_write c q w = (Raised (ConnectionFailure "write refused"), w').
Proof.
  apply (write_tick_raises_only_what_a_write_raised
           ex_refused (write_tick ex_refused).2).
  - change (connections (relay ex_refused)) with [ex_source; ex_failing_sink].
    intros c Hc. apply elem_of_cons in Hc as [->|Hc]; [by eexists|].
    apply list_elem_of_singleton in Hc as ->. by eexists.
  - reflexivity.
Defined.

Lemma completed_write_tick_empties_every_queue_witness :
  queues (write_tick ex_queued).2 !! name ex_sink = Some [].
Proof.
  apply (completed_write_tick_empties_every_queue ex_queued).
  - reflexivity.
  - change (connections (relay ex_queued)) with [ex_source; ex_sink].
    apply list_elem_of_further, list_elem_of_here.
Defined.

Lemma write_tick_after_completed_write_tick_is_idle_witness :
  write_tick (write_tick ex_queued).2 = (Ok tt, (write_tick ex_queued).2).
Proof.
  apply (write_tick_after_completed_write_tick_is_idle ex_queued).
  reflexivity.
Defined.

Lemma later_connection_of_a_name_is_never_written_witness :
  ∃ evs : list (@Event nat nat),
    calls (write_tick ex_twins).2 = calls ex_twins ++ evs ∧
    ∀ msgs, CallWrite ex_failing_sink msgs ∉ evs.
Proof.
  apply (later_connection_of_a_name_is_never_written
           [ex_sink] [] ex_sink ex_failing_sink ex_twins).
  - reflexivity.
  - apply list_elem_of_here.
  - reflexivity.
  - intros H. apply list_elem_of_singleton in H.
    apply (f_equal (λ c, (conn_write c [] 0%nat).1)) in H. discriminate H.
  - intros H. by apply elem_of_nil in H.
Defined.

Lemma completed_write_tick_writes_the_queues_it_found_witness :
  calls (write_tick ex_queued).2 =
    calls ex_queued ++ flushed (connections (relay ex_queued)) (queues ex_queued).
Proof.
  apply (completed_write_tick_writes_the_queues_it_found ex_queued).
  - exact ex_names_differ.
  - reflexivity.
Defined.

Lemma first_read_then_write_delivers_what_others_returned_witness :
  (∀ c, c ∈ [ex_source; ex_sink] →
     queues ex_queued !! name c
       = Some (received (name c) (pulled [ex_source; ex_sink] 0%nat))) ∧
  calls (write_tick ex_queued).2 =
    calls ex_queued ++ flushed [ex_source; ex_sink] (queues ex_queued).
Proof.
  apply (first_read_then_write_delivers_what_others_returned
           [ex_source; ex_sink] 10 (relay (ex_start [ex_source; ex_sink])) 0%nat
           ex_queued (write_tick ex_queued).2).
  - reflexivity.
  - exact ex_names_differ.
  - reflexivity.
  - reflexivity.
Defined.

Lemma init_makes_one_queue_per_distinct_name_witness :
  (size (message_queues (relay (ex_start [ex_sink; ex_failing_sink])))
     ≤ length [ex_sink; ex_failing_sink])%nat ∧
  (size (message_queues (relay (ex_start [ex_sink; ex_failing_sink])))
     = length [ex_sink; ex_failing_sink]
   ↔ NoDup (name <$> [ex_sink; ex_failing_sink])).
Proof.
  apply (init_makes_one_queue_per_distinct_name
           [ex_sink; ex_failing_sink] 10
           (relay (ex_start [ex_sink; ex_failing_sink]))).
  reflexivity.
Defined.

Lemma collection_and_interval_never_change_witness :
  connections (relay (sys ex_first_step)) = [ex_source; ex_sink] ∧
  polling_interval (relay (sys ex_first_step)) = 10.
Proof.
  apply (collection_and_interval_never_change
           (relay (ex_start [ex_source; ex_sink])) 0%nat ex_first_step).
  exact ex_first_step_reached.
Defined.

Lemma relay_only_makes_due_calls_witness :
  Forall (due_call [ex_source; ex_sink]) (calls (sys ex_first_step)).
Proof.
  apply (relay_only_makes_due_calls
           (relay (ex_start [ex_source; ex_sink])) 0%nat ex_first_step).
  exact ex_first_step_reached.
Defined.
